(** * MockAI LocalFAQ: a shallow embedding of [agent.py]

    The FAQ parser ([parse_faq]), the corpus aggregation of the main
    block ([all_qas.update]), the matcher ([best_match]) and the response
    formatter ([polish_answer]) are embedded as functions over Python
    strings, and the properties of the specification are stated on them.

    Python's [str] is a sequence of Unicode code points, a [dict] used as a
    mapping is a finite map keyed by strings, and the similarity score of
    [rapidfuzz] (a float) is a rational supplied from outside. *)

From Stdlib Require Import ZArith NArith QArith Qminmax List Ascii String Lia.
From stdpp Require Import base option list gmap fin_maps.
Import ListNotations.

#[local] Set Warnings "-clear-no-such-hyp".

Local Open Scope N_scope.

(** ** Python strings *)

Module PyStr.

(** A character is a Unicode code point, a string is the list of its
    characters. *)
Definition char := N.
Definition str := list N.

(** String literals of the source, written as ASCII literals. *)
Fixpoint of_string (s : string) : str :=
  match s with
  | EmptyString => []
  | String c s' => N_of_ascii c :: of_string s'
  end.

(** [str.isspace] on one character: the code points CPython lists as
    white space. *)
Definition isspace (c : char) : bool :=
  ((9 <=? c) && (c <=? 13)) || ((28 <=? c) && (c <=? 32))
  || (c =? 133) || (c =? 160) || (c =? 5760)
  || ((8192 <=? c) && (c <=? 8202))
  || (c =? 8232) || (c =? 8233) || (c =? 8239) || (c =? 8287)
  || (c =? 12288).

(** [s.lstrip()], [s.rstrip()], [s.strip()] with no argument. *)
Fixpoint lstrip (s : str) : str :=
  match s with
  | [] => []
  | c :: s' => if isspace c then lstrip s' else s
  end.

Definition rstrip (s : str) : str := rev (lstrip (rev s)).

Definition strip (s : str) : str := rstrip (lstrip s).

(** [s.startswith(prefix)]. *)
Fixpoint startswith (s prefix : str) : bool :=
  match prefix, s with
  | [], _ => true
  | _ :: _, [] => false
  | p :: prefix', c :: s' => (c =? p) && startswith s' prefix'
  end.

(** [s.replace(old, new)] for a non-empty [old]: the occurrences of [old]
    are found from left to right without overlap, and every one is
    replaced.  [skip] counts the characters of an occurrence still to be
    passed over. *)
Fixpoint replace_from (skip : nat) (old new s : str) : str :=
  match s with
  | [] => []
  | c :: s' =>
      match skip with
      | S k => replace_from k old new s'
      | O =>
          if startswith s old
          then new ++ replace_from (Nat.pred (List.length old)) old new s'
          else c :: replace_from O old new s'
      end
  end.

Definition replace (s old new : str) : str := replace_from O old new s.

(** [s.split(sep)] for a separator of one character: the pieces between
    the separators, empty pieces included, at least one piece. *)
Fixpoint split (s : str) (sep : char) : list str :=
  match s with
  | [] => [[]]
  | c :: s' =>
      if c =? sep then [] :: split s' sep
      else match split s' sep with
           | piece :: pieces => (c :: piece) :: pieces
           | [] => [[c]]
           end
  end.

(** [sep.join(pieces)]. *)
Fixpoint join (sep : str) (pieces : list str) : str :=
  match pieces with
  | [] => []
  | [piece] => piece
  | piece :: pieces' => piece ++ sep ++ join sep pieces'
  end.

(** [s.split()] with no argument: the maximal runs of characters that are
    not white space.  [word] is the run being read, last character
    first. *)
Fixpoint split_words (word : str) (s : str) : list str :=
  match s with
  | [] => match word with [] => [] | _ :: _ => [rev word] end
  | c :: s' =>
      if isspace c
      then match word with
           | [] => split_words [] s'
           | _ :: _ => rev word :: split_words [] s'
           end
      else split_words (c :: word) s'
  end.

Definition split_ws (s : str) : list str := split_words [] s.

(** Truth value of a string: only the empty string is false. *)
Definition truthy (s : str) : bool :=
  match s with [] => false | _ :: _ => true end.

End PyStr.

Import PyStr.

(** The literals of the parser. *)
Definition newline : char := 10.
Definition marker : str := of_string "## ".
Definition backtick : str := of_string "`".

(** ** 2) The FAQ parser *)

(** The state of the loop of [parse_faq]: the mapping built so far, the
    question that is open ([None] before the first marker line) and the
    answer lines collected for it. *)
Record scan := Scan {
  qas : gmap str str;
  current_q : option str;
  current_a : list str
}.

(** Truth value of a name that holds a string or [None], as in
    [if current_q:] and [if not answer_text:]: false for [None] and for
    the empty string. *)
Definition truthy_opt (q : option str) : bool :=
  match q with
  | Some q => truthy q
  | None => false
  end.

(** [if current_q: qas[current_q] = "\n".join(current_a).strip()]. *)
Definition save (st : scan) : gmap str str :=
  match current_q st with
  | Some q =>
      if truthy q
      then <[ q := strip (join [newline] (current_a st)) ]> (qas st)
      else qas st
  | None => qas st
  end.

(** The question text of a marker line:
    [line.replace("## ", "").strip()]. *)
Definition question_of (line : str) : str := strip (replace line marker []).

(** One iteration of [for line in lines]. *)
Definition step (st : scan) (line : str) : scan :=
  if startswith line marker
  then {| qas := save st; current_q := Some (question_of line); current_a := [] |}
  else if truthy_opt (current_q st)
       then {| qas := qas st; current_q := current_q st;
               current_a := current_a st ++ [line] |}
       else st.

Definition scan_init : scan :=
  {| qas := ∅; current_q := None; current_a := [] |}.

(** The state after the loop over the lines of [md_text]. *)
Definition scan_lines (lines : list str) : scan := fold_left step lines scan_init.

Definition parse_faq (md_text : str) : gmap str str :=
  save (scan_lines (split md_text newline)).

(** The marker lines of a text, in order. *)
Definition marker_lines (md_text : str) : list str :=
  List.filter (fun line => startswith line marker) (split md_text newline).

(** The question text the specification describes for a marker line: the
    marker prefix removed, the remainder stripped. *)
Definition question_after_prefix (line : str) : str :=
  strip (drop (List.length marker) line).

(** ** Aggregation of the corpus (main block) *)

(** [d.update(other)]: the entries of [other] are written into [d], an
    entry of [other] replaces the entry of [d] with the same key. *)
Definition update (d other : gmap str str) : gmap str str := other ∪ d.

(** The running mapping after merging the per-document mappings in the
    order given. *)
Definition merge (parsed : list (gmap str str)) : gmap str str :=
  fold_left update parsed ∅.

(** [all_qas] of the main block, for the texts [docs.values()]. *)
Definition all_qas (docs : list str) : gmap str str :=
  merge (map parse_faq docs).

(** The questions a list of lines contributes: the non-empty question
    texts of its marker lines. *)
Definition questions_of (lines : list str) : list str :=
  List.filter truthy
    (map question_of (List.filter (fun line => startswith line marker) lines)).

(** ** 3) The matcher *)

Section Matcher.

(** [fuzz.token_set_ratio] of [rapidfuzz]: the similarity score of two
    strings.  The library is not part of the program; its score, a finite
    float, is taken as a rational. *)
Variable token_set_ratio : str → str → Q.

(** [x < y] on scores, as a test. *)
Definition Qltb (x y : Q) : bool := negb (Qle_bool y x).

(** One iteration of [for q in questions], on the pair
    [(best_q, best_score)]. *)
Definition track (user_question : str) (best : option str * Q) (q : str)
  : option str * Q :=
  let score := token_set_ratio user_question q in
  if Qltb (snd best) score then (Some q, score) else best.

(** [(best_q, best_score)] after the loop. *)
Definition best_of (user_question : str) (questions : list str)
  : option str * Q :=
  fold_left (track user_question) questions (None, 0%Q).

(** The threshold chosen from the number of words of the query. *)
Definition bucket (user_question : str) : Z :=
  let length := List.length (split_ws user_question) in
  if (length <=? 2)%nat then 40%Z
  else if (length <=? 4)%nat then 45%Z
  else 50%Z.

Definition floor : Z := 35%Z.

(** [threshold = max(threshold, floor)]. *)
Definition threshold (user_question : str) : Z :=
  Z.max (bucket user_question) floor.

Definition best_match (user_question : str) (questions : list str)
  : option str :=
  let best := best_of user_question questions in
  if Qle_bool (inject_Z (threshold user_question)) (snd best)
  then fst best
  else None.

(** [m] is the best similarity score of the candidates: some candidate
    scores [m] and none scores more. *)
Definition is_best_score (user_question : str) (questions : list str) (m : Q)
  : Prop :=
  (∃ q, q ∈ questions ∧ (token_set_ratio user_question q == m)%Q) ∧
  Forall (λ q, (token_set_ratio user_question q <= m)%Q) questions.

End Matcher.

(** A stand-in scorer for the examples: 100 when the candidate starts
    with the query, 0 otherwise. *)
Definition prefix_ratio (user_question q : str) : Q :=
  if startswith q user_question then 100%Q else 0%Q.

(** The score of [rapidfuzz] for two strings of one word each: with a
    single token on either side, [token_set_ratio] is the normalised
    Indel similarity of the two words, 200 times the length of their
    longest common subsequence over the sum of their lengths (100 for
    equal words), and 0 when a string is empty. *)
Fixpoint lcs_length (a b : str) : nat :=
  match a with
  | [] => O
  | x :: a' =>
      (fix along (b : str) : nat :=
         match b with
         | [] => O
         | y :: b' =>
             if x =? y then S (lcs_length a' b')
             else Nat.max (lcs_length a' b) (along b')
         end) b
  end.

Definition word_ratio (s1 s2 : str) : Q :=
  match s1, s2 with
  | [], _ | _, [] => 0%Q
  | _ :: _, _ :: _ =>
      Qmake (200 * Z.of_nat (lcs_length s1 s2))
            (Pos.of_nat (List.length s1 + List.length s2))
  end.

(** ** 4) The response formatter *)

(** The constants of [colorama] the formatter uses: ANSI escape
    sequences. *)
Definition ESC : char := 27.
Definition Fore_RED : str := ESC :: of_string "[31m".
Definition Fore_CYAN : str := ESC :: of_string "[36m".
Definition Style_RESET_ALL : str := ESC :: of_string "[0m".

(** The right single quotation mark of the two messages. *)
Definition rsquo : char := 8217.

Definition no_information : str :=
  of_string "I don" ++ [rsquo] ++ of_string "t have information about that yet.".

Definition preamble : str :=
  of_string "Here" ++ [rsquo] ++ of_string "s what I found:".

(** [answer_text] is [None] when the corpus has no entry for the
    question ([all_qas.get]). *)
Definition polish_answer (answer_text : option str) : str :=
  if negb (truthy_opt answer_text)
  then Fore_RED ++ no_information ++ Style_RESET_ALL
  else
    let cleaned := strip (default [] answer_text) in
    let cleaned := replace cleaned backtick [] in
    Fore_CYAN ++ preamble ++ [newline; newline] ++ cleaned ++ Style_RESET_ALL.

(** ** The document of the parsing scenario *)

Definition faq_doc : str :=
  of_string "## How do I reset my password?" ++ [newline]
  ++ of_string "Go to Settings." ++ [newline]
  ++ of_string "## Where are logs stored?" ++ [newline]
  ++ of_string "Logs are in /var/log." ++ [newline].

Definition faq_doc_qas : gmap str str :=
  <[ of_string "How do I reset my password?" := of_string "Go to Settings." ]>
  (<[ of_string "Where are logs stored?" := of_string "Logs are in /var/log." ]> ∅).

(** ** 1) Loading the documents *)

(** [s.endswith(suffix)]. *)
Definition endswith (s suffix : str) : bool :=
  startswith (rev s) (rev suffix).

(** [filename.endswith((".txt", ".md"))]. *)
Definition is_doc_name (filename : str) : bool :=
  endswith filename (of_string ".txt") || endswith filename (of_string ".md").

(** The dictionary [docs], with its insertion order: [docs[k] = v]
    replaces the value of a key already present where it stands, and puts
    a new key last. *)
Fixpoint dict_set (d : list (str * str)) (k v : str) : list (str * str) :=
  match d with
  | [] => [(k, v)]
  | (k', v') :: d' =>
      if decide (k' = k) then (k, v) :: d' else (k', v') :: dict_set d' k v
  end.

Fixpoint dict_get (d : list (str * str)) (k : str) : option str :=
  match d with
  | [] => None
  | (k', v') :: d' => if decide (k' = k) then Some v' else dict_get d' k
  end.

(** [docs.values()]. *)
Definition dict_values (d : list (str * str)) : list str := map snd d.

(** The exceptions loading can end with. *)
Inductive exception :=
  | FileNotFoundError
  | NotADirectoryError
  | IsADirectoryError
  | PermissionError
  | UnicodeDecodeError
  | OSError.

(** What opening a file of the folder and reading it as UTF-8 gives: its
    text, or the exception raised. *)
Inductive read :=
  | Text (text : str)
  | Raises (e : exception).

(** The names [os.listdir] gives, in its order, each with what reading
    that file gives. *)
Definition listing := list (str * read).

(** What the program sees of the folder: [os.path.isdir] is false, or
    [os.listdir] raises, or it gives a listing. *)
Inductive folder :=
  | NotADirectory
  | Unlistable (e : exception)
  | Directory (entries : listing).

(** How [load_docs] ends: with an exception, or with the dictionary
    [docs]. *)
Inductive loaded :=
  | Raised (e : exception)
  | Docs (docs : list (str * str)).

(** The loop of [load_docs]: a file is opened only when its name has one
    of the two extensions, and the exception of a file that cannot be
    read leaves the loop. *)
Fixpoint load_files (entries : listing) (docs : list (str * str)) : loaded :=
  match entries with
  | [] => Docs docs
  | (filename, content) :: entries' =>
      if is_doc_name filename
      then match content with
           | Text text => load_files entries' (dict_set docs filename text)
           | Raises e => Raised e
           end
      else load_files entries' docs
  end.

Definition load_docs (folder : folder) : loaded :=
  match folder with
  | NotADirectory => Raised FileNotFoundError
  | Unlistable e => Raised e
  | Directory entries => load_files entries []
  end.

(** The files of a listing that have a document extension and could be
    read, each with its text, in the order of the listing. *)
Definition doc_files (entries : listing) : list (str * str) :=
  omap (λ entry : str * read,
          if is_doc_name (fst entry)
          then match snd entry with
               | Text text => Some (fst entry, text)
               | Raises _ => None
               end
          else None)
       entries.

(** The corpus the main block builds from the folder: the documents are
    merged in the order of [docs.values()]; an exception of [load_docs]
    ends the program. *)
Definition build_corpus (folder : folder) : exception + gmap str str :=
  match load_docs folder with
  | Docs docs => inr (all_qas (dict_values docs))
  | Raised e => inl e
  end.

(** ** 5) The interactive loop *)

Definition Fore_GREEN : str := ESC :: of_string "[32m".
Definition Fore_MAGENTA : str := ESC :: of_string "[35m".

Definition matched_message (best_q : str) : str :=
  Fore_GREEN ++ of_string "Matched FAQ question: " ++ best_q ++ Style_RESET_ALL.

Definition sorry_message : str :=
  Fore_RED ++ of_string "Sorry, I couldn" ++ [rsquo]
  ++ of_string "t find anything about that." ++ Style_RESET_ALL.

Definition goodbye_message : str :=
  Fore_MAGENTA ++ of_string "Goodbye!" ++ Style_RESET_ALL.

(** ["\n" + "-"*40 + "\n"]. *)
Definition separator : str :=
  [newline] ++ repeat (N_of_ascii "-") 40 ++ [newline].

(** [all_qas.get(best_q)], where [best_q] may be [None]. *)
Definition get (d : gmap str str) (k : option str) : option str :=
  match k with
  | Some k => d !! k
  | None => None
  end.

(** How the loop ends: by [break], or by the exception of [input] when
    there is no line left to read. *)
Inductive ending := Exited | EndOfInput.

Section Loop.

Variable token_set_ratio : str → str → Q.

(** [str.lower]. *)
Variable lower : str → str.

(** The corpus and the list of its questions, as the loop reads them. *)
Variable all_qas : gmap str str.
Variable questions : list str.

(** The strings one iteration prints for a question that is not a
    command to leave. *)
Definition answer_question (question : str) : list str :=
  let best_q := best_match token_set_ratio question questions in
  let answer := get all_qas best_q in
  (if truthy_opt best_q
   then [matched_message (default [] best_q); polish_answer answer]
   else [sorry_message])
  ++ [separator].

(** [question.lower() in ("exit", "quit")]. *)
Definition is_exit (question : str) : bool :=
  bool_decide (lower question = of_string "exit")
  || bool_decide (lower question = of_string "quit").

(** The loop on the lines [input] returns one after the other: the
    strings printed, in order, and how the loop ended. *)
Fixpoint loop (inputs : list str) : list str * ending :=
  match inputs with
  | [] => ([], EndOfInput)
  | line :: inputs' =>
      let question := strip line in
      if is_exit question then ([goodbye_message], Exited)
      else
        let rest := loop inputs' in
        (answer_question question ++ fst rest, snd rest)
  end.

End Loop.

(** A string without white space at either end. *)
Definition trimmed (s : str) : Prop :=
  (∀ c s', s = c :: s' → isspace c = false) ∧
  (∀ c s', s = s' ++ [c] → isspace c = false).

(** [old] occurs nowhere in [s]. *)
Definition absent (old s : str) : Prop :=
  ∀ i : nat, startswith (drop i s) old = false.

(** A stand-in for [str.lower] in the examples: the letters A to Z are
    mapped to a to z, the other characters are kept. *)
Definition ascii_lower (s : str) : str :=
  map (λ c, if (65 <=? c) && (c <=? 90) then c + 32 else c) s.

(** ** Facts on the string operations *)

Lemma lstrip_head (s : str) :
  lstrip s = [] ∨ ∃ c s', lstrip s = c :: s' ∧ isspace c = false.
Proof.
  induction s as [|c s IH]; simpl; [by left|].
  destruct (isspace c) eqn:Hc; [exact IH|].
  right. by exists c, s.
Qed.

(** A stripped string is empty or has a character that is not white
    space. *)
Lemma strip_not_blank (s : str) :
  strip s ≠ [] → ∃ c, c ∈ strip s ∧ isspace c = false.
Proof.
  unfold strip, rstrip. intros Hne.
  destruct (lstrip_head (rev (lstrip s))) as [E | (c & s' & E & Hc)].
  - rewrite E in Hne. by destruct Hne.
  - exists c. split; [|done].
    rewrite E. apply list_elem_of_In, in_rev. rewrite rev_involutive. by left.
Qed.

Lemma truthy_true (s : str) : truthy s = true ↔ s ≠ [].
Proof. destruct s; simpl; split; congruence. Qed.

(** ** Facts on the parser loop *)

Lemma save_step_marker (st : scan) (line : str) :
  startswith line marker = true →
  save (step st line) =
    if truthy (question_of line)
    then <[ question_of line := [] ]> (save st)
    else save st.
Proof.
  intros Hm. unfold step. rewrite Hm. unfold save at 1. simpl.
  by destruct (truthy (question_of line)).
Qed.

Lemma dom_save_step_other (st : scan) (line : str) :
  startswith line marker = false →
  dom (save (step st line)) = dom (save st).
Proof.
  intros Hm. unfold step. rewrite Hm.
  destruct (truthy_opt (current_q st)) eqn:Ho; [|done].
  unfold save. simpl. destruct (current_q st) as [q|]; [|done].
  simpl in Ho. rewrite Ho. by rewrite !dom_insert_L.
Qed.

Lemma dom_save_fold (lines : list str) (st : scan) :
  dom (save (fold_left step lines st)) =
  dom (save st) ∪ list_to_set (questions_of lines).
Proof.
  revert st. induction lines as [|line lines IH]; intros st; simpl.
  - unfold questions_of. simpl. set_solver.
  - rewrite IH. unfold questions_of. simpl.
    destruct (startswith line marker) eqn:Hm; simpl.
    + rewrite save_step_marker by done.
      destruct (truthy (question_of line)); simpl.
      * rewrite dom_insert_L. set_solver.
      * done.
    + by rewrite dom_save_step_other.
Qed.

Lemma dom_parse_faq (md_text : str) :
  dom (parse_faq md_text) =
  list_to_set (questions_of (split md_text newline)).
Proof.
  unfold parse_faq, scan_lines. rewrite dom_save_fold.
  unfold save, scan_init; simpl. set_solver.
Qed.

(** Lines that are not marker lines, read while a question is open, are
    appended to its answer and change nothing else. *)
Lemma scan_answer_lines (post : list str) (st : scan) :
  Forall (λ line, startswith line marker = false) post →
  truthy_opt (current_q st) = true →
  fold_left step post st =
    {| qas := qas st; current_q := current_q st;
       current_a := current_a st ++ post |}.
Proof.
  intros Hpost. revert st.
  induction Hpost as [|line post Hline _ IH]; intros st Ho; simpl.
  - rewrite app_nil_r. by destruct st.
  - unfold step at 2. rewrite Hline, Ho.
    rewrite IH by done. simpl. by rewrite <- app_assoc.
Qed.

(** The state after the last marker line and the answer lines that
    follow it. *)
Lemma scan_last_question (pre post : list str) (line : str) :
  startswith line marker = true →
  Forall (λ l, startswith l marker = false) post →
  question_of line ≠ [] →
  scan_lines (pre ++ line :: post) =
    {| qas := save (scan_lines pre);
       current_q := Some (question_of line);
       current_a := post |}.
Proof.
  intros Hm Hpost Hq. unfold scan_lines.
  rewrite fold_left_app. simpl. unfold step at 2. rewrite Hm.
  rewrite scan_answer_lines; [done|done|].
  simpl. by apply truthy_true.
Qed.

(** ** The parser: claims *)

(** C1. The scenario document parses to exactly the two expected
    entries.  In general, when the text ends after a marker line with a
    non-empty question and some lines that are not marker lines, the
    mapping returned holds, under that question, those lines joined with
    newlines and stripped: the open question is stored at the end of the
    input. *)
Theorem parse_faq_scenario_and_final_flush :
  parse_faq faq_doc = faq_doc_qas ∧
  ∀ (md_text : str) (pre post : list str) (line : str),
    split md_text newline = pre ++ line :: post →
    startswith line marker = true →
    Forall (λ l, startswith l marker = false) post →
    question_of line ≠ [] →
    parse_faq md_text !! question_of line
      = Some (strip (join [newline] post)).
Proof.
  split; [by vm_compute|].
  intros md_text pre post line Hsplit Hm Hpost Hq.
  unfold parse_faq. rewrite Hsplit, scan_last_question by done.
  unfold save. simpl.
  apply truthy_true in Hq. rewrite Hq.
  apply lookup_insert_eq.
Qed.

Lemma parse_faq_final_flush_witness :
  parse_faq faq_doc !! of_string "Where are logs stored?"
    = Some (of_string "Logs are in /var/log.").
Proof.
  refine (proj2 parse_faq_scenario_and_final_flush faq_doc
    [of_string "## How do I reset my password?"; of_string "Go to Settings."]
    [of_string "Logs are in /var/log."; []]
    (of_string "## Where are logs stored?") _ _ _ _).
  - vm_compute. reflexivity.
  - vm_compute. reflexivity.
  - repeat constructor.
  - vm_compute. discriminate.
Defined.

(** C2 (fails on the code).  On the marker line [## What does ## mean?]
    the parser removes both occurrences of the marker: the key is
    [What does mean?], not the remainder of the line after the prefix,
    and the mapping has no entry under [What does ## mean?]. *)
Theorem question_of_removes_inner_markers :
  let line := of_string "## What does ## mean?" in
  startswith line marker = true ∧
  question_after_prefix line = of_string "What does ## mean?" ∧
  question_of line = of_string "What does mean?" ∧
  parse_faq line = {[ of_string "What does mean?" := [] ]} ∧
  parse_faq line !! of_string "What does ## mean?" = None.
Proof. vm_compute. repeat split. Qed.

Lemma questions_of_all_open (lines : list str) :
  Forall (λ l, question_of l ≠ [])
    (List.filter (λ line, startswith line marker) lines) →
  questions_of lines =
    map question_of (List.filter (λ line, startswith line marker) lines).
Proof.
  unfold questions_of.
  induction (List.filter (λ line, startswith line marker) lines)
    as [|l ls IH]; intros Hall; simpl; [done|].
  inversion Hall as [|? ? Hl Hls]; subst.
  apply truthy_true in Hl. rewrite Hl. f_equal. by apply IH.
Qed.

Lemma elem_of_questions_of (k : str) (lines : list str) :
  k ∈ questions_of lines →
  k ≠ [] ∧ ∃ line, line ∈ lines ∧ startswith line marker = true
                   ∧ k = question_of line.
Proof.
  unfold questions_of. rewrite list_elem_of_In, filter_In, in_map_iff.
  intros [(line & <- & Hin) Hk]. apply filter_In in Hin as [Hin Hm].
  split; [by apply truthy_true|].
  exists line. by rewrite list_elem_of_In.
Qed.

(** C3 (fails as stated).  The text that is the single marker line [## ]
    has one marker line, whose question text is empty, and parses to the
    empty mapping: the parser never stores an empty question. *)
Lemma parse_faq_skips_empty_question :
  ¬ (∀ md_text : str,
       NoDup (map question_after_prefix (marker_lines md_text)) →
       size (parse_faq md_text) = List.length (marker_lines md_text)).
Proof.
  intros H. specialize (H (of_string "## ")).
  assert (Hnd : NoDup (map question_after_prefix (marker_lines (of_string "## ")))).
  { vm_compute. apply NoDup_singleton. }
  specialize (H Hnd). vm_compute in H. discriminate.
Qed.

(** ** The corpus: claims *)

Lemma dom_fold_update (k : str) (parsed : list (gmap str str)) (acc : gmap str str) :
  k ∈ dom (fold_left update parsed acc) ↔
  k ∈ dom acc ∨ ∃ m, m ∈ parsed ∧ k ∈ dom m.
Proof.
  revert acc. induction parsed as [|m parsed IH]; intros acc; simpl.
  - split; [by left|]. intros [H | (m & Hm & _)]; [done|]. by apply elem_of_nil in Hm.
  - rewrite IH. unfold update. rewrite dom_union_L, elem_of_union.
    split.
    + intros [[Hk | Hk] | (m' & Hm' & Hk)].
      * right. exists m. split; [left|done].
      * by left.
      * right. exists m'. split; [by right|done].
    + intros [Hk | (m' & Hm' & Hk)].
      * left. by right.
      * apply elem_of_cons in Hm' as [-> | Hm'].
        -- left. by left.
        -- right. by exists m'.
Qed.

(** C9. Every key of the merged corpus is the question text the parser
    derived from a marker line of one of the documents, and it is neither
    empty nor made of white space only. *)
Theorem all_qas_keys (docs : list str) (k : str) :
  k ∈ dom (all_qas docs) →
  (∃ text line, text ∈ docs ∧ line ∈ split text newline
                ∧ startswith line marker = true ∧ k = question_of line)
  ∧ k ≠ [] ∧ ∃ c, c ∈ k ∧ isspace c = false.
Proof.
  unfold all_qas, merge. rewrite dom_fold_update, dom_empty_L.
  intros [Hk | (m & Hm & Hk)]; [by apply not_elem_of_empty in Hk|].
  apply list_elem_of_fmap in Hm as (text & -> & Htext).
  rewrite dom_parse_faq, elem_of_list_to_set in Hk.
  apply elem_of_questions_of in Hk as (Hne & line & Hline & Hmark & ->).
  split; [by exists text, line|]. split; [done|].
  by apply strip_not_blank.
Qed.

Lemma all_qas_keys_witness :
  ∃ c, c ∈ of_string "Where are logs stored?" ∧ isspace c = false.
Proof.
  refine (proj2 (proj2 (all_qas_keys [faq_doc] (of_string "Where are logs stored?") _))).
  apply elem_of_dom. vm_compute. by eexists.
Defined.

Lemma merge_pair (m1 m2 : gmap str str) : merge [m1; m2] = m2 ∪ m1.
Proof. unfold merge, update. simpl. by rewrite (right_id_L ∅ (∪)). Qed.

Lemma fold_update_keeps (k v : str) (after : list (gmap str str)) (acc : gmap str str) :
  acc !! k = Some v →
  Forall (λ m : gmap str str, m !! k = None) after →
  fold_left update after acc !! k = Some v.
Proof.
  intros Hacc Hafter. revert acc Hacc.
  induction Hafter as [|m after Hm _ IH]; intros acc Hacc; simpl; [done|].
  apply IH. unfold update. by rewrite lookup_union_r.
Qed.

(** C7. Two mappings with disjoint key sets merge to the same mapping in
    either order.  For a key that two mappings share, the value of the
    mapping merged later is the one in the result, in both orders; and in
    a merge of any number of mappings, a key has the value of the last
    mapping that holds it. *)
Theorem merge_disjoint_commutes_later_wins :
  (∀ m1 m2 : gmap str str,
     dom m1 ## dom m2 → merge [m1; m2] = merge [m2; m1]) ∧
  (∀ (m1 m2 : gmap str str) (k : str),
     k ∈ dom m1 → k ∈ dom m2 →
     merge [m1; m2] !! k = m2 !! k ∧ merge [m2; m1] !! k = m1 !! k) ∧
  (∀ (before after : list (gmap str str)) (m : gmap str str) (k v : str),
     m !! k = Some v →
     Forall (λ m' : gmap str str, m' !! k = None) after →
     merge (before ++ m :: after) !! k = Some v).
Proof.
  split; [|split].
  - intros m1 m2 Hdisj. rewrite !merge_pair.
    apply map_union_comm. symmetry. by apply map_disjoint_dom.
  - intros m1 m2 k [v1 H1]%elem_of_dom [v2 H2]%elem_of_dom.
    rewrite !merge_pair.
    rewrite (lookup_union_Some_l m2 m1 k v2 H2).
    by rewrite (lookup_union_Some_l m1 m2 k v1 H1).
  - intros before after m k v Hm Hafter. unfold merge.
    rewrite fold_left_app. simpl.
    apply fold_update_keeps; [|done].
    unfold update. by apply lookup_union_Some_l.
Qed.

Lemma merge_disjoint_commutes_later_wins_witness :
  let m1 : gmap str str := {[ of_string "Q1" := of_string "one" ]} in
  let m2 : gmap str str := {[ of_string "Q2" := of_string "two" ]} in
  let m3 : gmap str str := {[ of_string "Q1" := of_string "three" ]} in
  merge [m1; m2] = merge [m2; m1] ∧
  (merge [m1; m3] !! of_string "Q1" = m3 !! of_string "Q1" ∧
   merge [m3; m1] !! of_string "Q1" = m1 !! of_string "Q1") ∧
  merge ([m1] ++ m3 :: [m2]) !! of_string "Q1" = Some (of_string "three").
Proof.
  intros m1 m2 m3.
  destruct merge_disjoint_commutes_later_wins as (Hcomm & Hshared & Hlast).
  split; [|split].
  - apply Hcomm. apply elem_of_disjoint. intros k.
    unfold m1, m2. rewrite !dom_singleton_L, !elem_of_singleton.
    intros -> H. vm_compute in H. discriminate.
  - apply Hshared; apply elem_of_dom; vm_compute; by eexists.
  - apply Hlast; [by vm_compute|]. repeat constructor.
Defined.

(** ** The matcher: facts on the loop *)

Section MatcherFacts.

Variable token_set_ratio : str → str → Q.

Local Abbreviation score := token_set_ratio.

Local Open Scope Q_scope.

Lemma Qltb_lt (x y : Q) : Qltb x y = true ↔ x < y.
Proof.
  unfold Qltb. rewrite negb_true_iff, <- not_true_iff_false, Qle_bool_iff.
  split; [apply Qnot_le_lt | apply Qlt_not_le].
Qed.

Lemma Qltb_ge (x y : Q) : Qltb x y = false ↔ y <= x.
Proof. unfold Qltb. by rewrite negb_false_iff, Qle_bool_iff. Qed.

Lemma threshold_floor (uq : str) : (floor <= threshold uq)%Z.
Proof. apply Z.le_max_r. Qed.

Lemma threshold_pos (uq : str) : 0 < inject_Z (threshold uq).
Proof.
  apply Qlt_le_trans with (inject_Z floor); [reflexivity|].
  rewrite <- Zle_Qle. apply threshold_floor.
Qed.

Lemma track_beaten (uq : str) (best : option str * Q) (x : str) :
  score uq x <= snd best → track score uq best x = best.
Proof. intros Hx. unfold track. apply Qltb_ge in Hx. by rewrite Hx. Qed.

Lemma track_beats (uq : str) (best : option str * Q) (x : str) :
  snd best < score uq x → track score uq best x = (Some x, score uq x).
Proof. intros Hx. unfold track. apply Qltb_lt in Hx. by rewrite Hx. Qed.

(** Candidates that do not beat the best score so far leave the pair
    unchanged. *)
Lemma fold_track_keep (uq : str) (l : list str) (best : option str * Q) :
  Forall (λ x, score uq x <= snd best) l →
  fold_left (track score uq) l best = best.
Proof.
  induction 1 as [|x l Hx _ IH]; simpl; [done|].
  by rewrite track_beaten.
Qed.

(** Below a bound [s] on the scores read, the best score stays below
    [s]. *)
Lemma fold_track_below (uq : str) (l : list str) (best : option str * Q) (s : Q) :
  snd best < s →
  Forall (λ x, score uq x < s) l →
  snd (fold_left (track score uq) l best) < s.
Proof.
  intros Hbest Hl. revert best Hbest.
  induction Hl as [|x l Hx _ IH]; intros best Hbest; simpl; [done|].
  apply IH. unfold track. by destruct (Qltb (snd best) (score uq x)).
Qed.

(** The pair after the loop: either no candidate beat the initial score,
    or the pair holds a candidate of the list with its score, which no
    candidate exceeds. *)
Lemma fold_track_cases (uq : str) (l : list str) (best : option str * Q) :
  (fold_left (track score uq) l best = best
   ∧ Forall (λ x, score uq x <= snd best) l)
  ∨ (∃ q, q ∈ l
          ∧ fold_left (track score uq) l best = (Some q, score uq q)
          ∧ snd best < score uq q
          ∧ Forall (λ x, score uq x <= score uq q) l).
Proof.
  revert best. induction l as [|x l IH]; intros best; simpl.
  - left. by split.
  - destruct (Qltb (snd best) (score uq x)) eqn:Hx.
    + apply Qltb_lt in Hx. rewrite track_beats by done.
      right. destruct (IH (Some x, score uq x)) as [[E Hl] | (q & Hq & E & Hlt & Hl)].
      * exists x. simpl in Hl. repeat split; [left|done|done|].
        constructor; [apply Qle_refl|done].
      * exists q. simpl in Hlt. repeat split; [by right|done| |].
        -- by apply Qlt_trans with (score uq x).
        -- constructor; [by apply Qlt_le_weak|done].
    + apply Qltb_ge in Hx. rewrite track_beaten by done.
      destruct (IH best) as [[E Hl] | (q & Hq & E & Hlt & Hl)].
      * left. split; [done|]. by constructor.
      * right. exists q. repeat split; [by right|done|done|].
        constructor; [|done].
        apply Qlt_le_weak. by apply Qle_lt_trans with (snd best).
Qed.

(** ** The matcher: claims *)

(** C4. The threshold is 40 for a query of at most two words, 45 for
    three or four words, 50 for five words or more, clamped from below
    with [max(threshold, 35)].  For a non-empty list of candidates whose
    best score is [m], the matcher returns a candidate scoring [m] when
    the threshold is at most [m] (a score equal to the threshold is
    accepted), and nothing when [m] is below the threshold. *)
Theorem best_match_accepts_from_threshold
    (uq : str) (questions : list str) (m : Q) :
  questions ≠ [] →
  is_best_score score uq questions m →
  let n := List.length (split_ws uq) in
  ((n <= 2)%nat → bucket uq = 40%Z) ∧
  ((3 <= n <= 4)%nat → bucket uq = 45%Z) ∧
  ((5 <= n)%nat → bucket uq = 50%Z) ∧
  threshold uq = Z.max (bucket uq) 35 ∧
  (inject_Z (threshold uq) <= m →
     ∃ q, best_match score uq questions = Some q
          ∧ q ∈ questions ∧ score uq q == m) ∧
  (m < inject_Z (threshold uq) → best_match score uq questions = None).
Proof.
  intros _ [(q0 & Hq0 & Em) Hmax] n.
  assert (Hbucket :
    ((n <= 2)%nat → bucket uq = 40%Z) ∧
    ((3 <= n <= 4)%nat → bucket uq = 45%Z) ∧
    ((5 <= n)%nat → bucket uq = 50%Z)).
  { unfold bucket. fold n.
    destruct (Nat.leb_spec n 2); destruct (Nat.leb_spec n 4);
      repeat split; intros; first [reflexivity | lia]. }
  destruct Hbucket as (H2 & H4 & H5).
  repeat split; try done.
  - intros Hacc. unfold best_match, best_of.
    destruct (fold_track_cases uq questions (None, 0))
      as [[E Hl] | (q & Hq & E & Hlt & Hl)].
    + exfalso. simpl in Hl. rewrite Forall_forall in Hl.
      pose proof (Hl q0 Hq0) as H0. rewrite Em in H0.
      pose proof (threshold_pos uq) as Hpos.
      apply (Qlt_irrefl 0).
      apply Qlt_le_trans with (inject_Z (threshold uq)); [done|].
      by apply Qle_trans with m.
    + rewrite E. simpl.
      assert (Eq : score uq q == m).
      { apply Qle_antisym.
        - rewrite Forall_forall in Hmax. by apply Hmax.
        - rewrite <- Em. rewrite Forall_forall in Hl. by apply Hl. }
      assert (Hle : Qle_bool (inject_Z (threshold uq)) (score uq q) = true).
      { apply Qle_bool_iff. by rewrite Eq. }
      rewrite Hle. by exists q.
  - intros Hrej. unfold best_match, best_of.
    destruct (fold_track_cases uq questions (None, 0))
      as [[E Hl] | (q & Hq & E & Hlt & Hl)].
    + rewrite E. simpl. by destruct (Qle_bool _ _).
    + rewrite E. simpl.
      destruct (Qle_bool (inject_Z (threshold uq)) (score uq q)) eqn:Hle; [|done].
      exfalso. apply Qle_bool_iff in Hle.
      rewrite Forall_forall in Hmax. pose proof (Hmax q Hq) as Hqm.
      apply (Qlt_irrefl m).
      apply Qlt_le_trans with (inject_Z (threshold uq)); [done|].
      by apply Qle_trans with (score uq q).
Qed.

(** C5, amended.  When the first candidate at the maximum score (the
    candidates before it score less, the candidates after it do not score
    more) has a score that reaches the threshold, the matcher returns
    it. *)
Theorem best_match_first_of_ties (uq q : str) (l1 l2 : list str) :
  Forall (λ x, score uq x < score uq q) l1 →
  Forall (λ x, score uq x <= score uq q) l2 →
  inject_Z (threshold uq) <= score uq q →
  best_match score uq (l1 ++ q :: l2) = Some q.
Proof.
  intros H1 H2 Hacc. unfold best_match, best_of.
  rewrite fold_left_app. simpl.
  assert (Hpos : 0 < score uq q).
  { apply Qlt_le_trans with (inject_Z (threshold uq)); [apply threshold_pos|done]. }
  rewrite track_beats by (by apply fold_track_below).
  rewrite fold_track_keep by done. simpl.
  apply Qle_bool_iff in Hacc. by rewrite Hacc.
Qed.

(** C6. With no candidate the matcher returns nothing, whatever the query
    and the scorer. *)
Theorem best_match_no_questions (uq : str) :
  best_match score uq [] = None.
Proof. unfold best_match, best_of. simpl. by destruct (Qle_bool _ _). Qed.

(** C10. The matcher returns nothing or one of the candidates it was
    given. *)
Theorem best_match_among_questions (uq : str) (questions : list str) :
  best_match score uq questions = None
  ∨ ∃ q, best_match score uq questions = Some q ∧ q ∈ questions.
Proof.
  unfold best_match, best_of.
  destruct (fold_track_cases uq questions (None, 0))
    as [[E Hl] | (q & Hq & E & Hlt & Hl)]; rewrite E; simpl.
  - left. by destruct (Qle_bool _ _).
  - destruct (Qle_bool _ _); [right; by exists q | by left].
Qed.

End MatcherFacts.

Lemma best_match_accepts_from_threshold_witness :
  let at_threshold : str → str → Q := λ _ _, 40%Q in
  let questions :=
    [of_string "How do I reset my password?"; of_string "Where are logs stored?"] in
  ∃ q, best_match at_threshold (of_string "password") questions = Some q
       ∧ q ∈ questions ∧ (at_threshold (of_string "password") q == 40)%Q.
Proof.
  intros at_threshold questions.
  refine (proj1 (proj2 (proj2 (proj2 (proj2
    (best_match_accepts_from_threshold at_threshold (of_string "password")
       questions 40%Q _ _))))) _).
  - discriminate.
  - split.
    + exists (of_string "How do I reset my password?").
      split; [left | reflexivity].
    + repeat constructor; vm_compute; discriminate.
  - vm_compute. discriminate.
Defined.

(** C5 (fails as stated).  For the query [ab] the candidates [abcdefghi]
    and [abcdefghj] both score 400/11 (36.36...), below the threshold 40 of
    a query of one word: they tie at the maximum, and the matcher returns
    nothing, not the first of them. *)
Lemma best_match_ties_below_threshold :
  let uq := of_string "ab" in
  let c1 := of_string "abcdefghi" in
  let c2 := of_string "abcdefghj" in
  (word_ratio uq c1 == 400 # 11)%Q
  ∧ (word_ratio uq c2 == 400 # 11)%Q
  ∧ threshold uq = 40%Z
  ∧ best_match word_ratio uq [c1; c2] = None.
Proof. vm_compute. repeat split. Qed.

Lemma best_match_first_of_ties_witness :
  best_match prefix_ratio (of_string "log")
    ([of_string "password reset"] ++ of_string "login help"
       :: [of_string "logs stored"])
  = Some (of_string "login help").
Proof.
  refine (best_match_first_of_ties prefix_ratio (of_string "log")
            (of_string "login help") [of_string "password reset"]
            [of_string "logs stored"] _ _ _).
  - repeat constructor.
  - repeat constructor. vm_compute. discriminate.
  - vm_compute. discriminate.
Defined.

(** ** The formatter: claims *)

(** Removing a one-character string keeps exactly the other
    characters. *)
Lemma replace_char_filter (c : char) (s : str) :
  replace s [c] [] = List.filter (λ x, negb (x =? c)) s.
Proof.
  unfold replace. induction s as [|x s IH]; simpl; [done|].
  assert (Hnil : startswith s (@nil char) = true) by (by destruct s).
  rewrite Hnil, andb_true_r, IH. by destruct (x =? c).
Qed.

(** C8 (fails as stated).  The reply for the answer
    [Use `install.exe`.] is not a preamble followed by two newlines and
    [Use install.exe.], whatever the preamble: it ends with the
    style-reset sequence. *)
Lemma polish_answer_ends_with_reset :
  ¬ ∃ wording : str,
      polish_answer (Some (of_string "Use `install.exe`."))
      = wording ++ [newline; newline] ++ of_string "Use install.exe.".
Proof.
  intros [wording E].
  apply (f_equal (@rev N)) in E.
  rewrite !rev_app_distr in E.
  vm_compute in E. discriminate.
Qed.

(** C8, amended.  An absent or empty answer gives the fixed message that
    no information is available.  Any other answer gives the cyan colour
    sequence, the preamble, two newlines, the answer stripped of
    surrounding white space and with every backtick removed, and the
    style-reset sequence. *)
Theorem polish_answer_cases :
  polish_answer None = Fore_RED ++ no_information ++ Style_RESET_ALL ∧
  polish_answer (Some []) = Fore_RED ++ no_information ++ Style_RESET_ALL ∧
  (∀ answer : str, answer ≠ [] →
     polish_answer (Some answer)
     = Fore_CYAN ++ preamble ++ [newline; newline]
       ++ List.filter (λ c, negb (c =? N_of_ascii "`")) (strip answer)
       ++ Style_RESET_ALL) ∧
  polish_answer (Some (of_string "Use `install.exe`."))
  = Fore_CYAN ++ preamble ++ [newline; newline]
    ++ of_string "Use install.exe." ++ Style_RESET_ALL.
Proof.
  repeat split.
  intros answer Hne. unfold polish_answer. simpl.
  apply truthy_true in Hne. rewrite Hne. simpl.
  unfold backtick. simpl of_string. change (N_of_ascii "`") with 96.
  by rewrite replace_char_filter.
Qed.

Lemma polish_answer_cases_witness :
  polish_answer (Some (of_string "  `ls` lists files. "))
  = Fore_CYAN ++ preamble ++ [newline; newline]
    ++ of_string "ls lists files." ++ Style_RESET_ALL.
Proof.
  refine (eq_trans
    (proj1 (proj2 (proj2 polish_answer_cases))
       (of_string "  `ls` lists files. ") _) _).
  - discriminate.
  - vm_compute. reflexivity.
Defined.

(** ** Further facts on the string operations *)

Lemma lstrip_split (s : str) :
  ∃ p, s = p ++ lstrip s ∧ Forall (λ c, isspace c = true) p.
Proof.
  induction s as [|c s (p & E & Hp)]; simpl.
  - by exists [].
  - destruct (isspace c) eqn:Hc.
    + exists (c :: p). split; [by rewrite <- app_comm_cons, <- E | by constructor].
    + by exists [].
Qed.

Lemma lstrip_fixed (s : str) :
  (∀ c s', s = c :: s' → isspace c = false) → lstrip s = s.
Proof.
  destruct s as [|c s]; simpl; [done|].
  intros H. by rewrite (H c s).
Qed.

Lemma strip_trimmed (s : str) : trimmed (strip s).
Proof.
  unfold strip, rstrip. split; intros c s' E.
  - apply (f_equal (@rev N)) in E. rewrite rev_involutive in E. simpl in E.
    destruct (lstrip_split (rev (lstrip s))) as (p & Ep & _).
    rewrite E in Ep. apply (f_equal (@rev N)) in Ep.
    rewrite rev_involutive, !rev_app_distr, rev_involutive in Ep. simpl in Ep.
    destruct (lstrip_head s) as [E0 | (c0 & s0 & E0 & Hc0)].
    + rewrite E0 in Ep. discriminate.
    + rewrite E0 in Ep. by injection Ep as -> _.
  - apply (f_equal (@rev N)) in E.
    rewrite rev_involutive, rev_app_distr in E. simpl in E.
    destruct (lstrip_head (rev (lstrip s))) as [E0 | (c0 & s0 & E0 & Hc0)].
    + rewrite E0 in E. discriminate.
    + rewrite E0 in E. by injection E as -> _.
Qed.

Lemma strip_fixed (s : str) : trimmed s → strip s = s.
Proof.
  intros [Hhead Hlast]. unfold strip, rstrip.
  rewrite (lstrip_fixed s Hhead).
  rewrite lstrip_fixed; [apply rev_involutive|].
  intros c s' E. apply (Hlast c (rev s')).
  apply (f_equal (@rev N)) in E. rewrite rev_involutive in E. by simpl in E.
Qed.

Lemma lstrip_blank (s : str) :
  Forall (λ c, isspace c = true) s → lstrip s = [].
Proof. induction 1 as [|c s Hc _ IH]; simpl; [done|]. by rewrite Hc. Qed.

Lemma strip_blank (s : str) :
  Forall (λ c, isspace c = true) s → strip s = [].
Proof. intros H. unfold strip, rstrip. by rewrite (lstrip_blank s H). Qed.

Lemma split_not_nil (s : str) (sep : char) : split s sep ≠ [].
Proof.
  destruct s as [|c s]; simpl; [discriminate|].
  destruct (c =? sep); [discriminate|].
  destruct (split s sep); discriminate.
Qed.

Lemma split_app_sep (a b : str) (sep : char) :
  split (a ++ sep :: b) sep = split a sep ++ split b sep.
Proof.
  induction a as [|c a IH]; simpl.
  - rewrite N.eqb_refl. reflexivity.
  - rewrite IH. destruct (c =? sep); [reflexivity|].
    pose proof (split_not_nil a sep) as Hne.
    destruct (split a sep); [by destruct Hne | reflexivity].
Qed.

Lemma replace_absent (old new s : str) :
  absent old s → replace_from 0 old new s = s.
Proof.
  induction s as [|c s IH]; intros Habs; simpl; [done|].
  pose proof (Habs 0%nat) as H0. simpl in H0.
  destruct old as [|o old]; [by destruct s|].
  rewrite H0. f_equal. apply IH. intros i. apply (Habs (S i)).
Qed.

(** ** The parser: further properties *)

Lemma scan_skips_closed (lines : list str) (st : scan) :
  Forall (λ line, startswith line marker = false) lines →
  truthy_opt (current_q st) = false →
  fold_left step lines st = st.
Proof.
  induction 1 as [|line lines Hline _ IH]; intros Hq; simpl; [done|].
  unfold step at 2. by rewrite Hline, Hq, IH.
Qed.

Lemma save_lookup_other (st : scan) (q : str) :
  current_q st ≠ Some q → save st !! q = qas st !! q.
Proof.
  intros Hq. unfold save. destruct (current_q st) as [q'|]; [|done].
  destruct (truthy q'); [|done].
  apply lookup_insert_ne. congruence.
Qed.

(** Lines without a marker line for the question [q] leave the entry of
    [q] as it is, when [q] is not the open question. *)
Lemma save_fold_other (q : str) (lines : list str) (st : scan) :
  current_q st ≠ Some q →
  Forall (λ l, startswith l marker = true → question_of l ≠ q) lines →
  save (fold_left step lines st) !! q = qas st !! q.
Proof.
  intros Hq Hlines. revert st Hq.
  induction Hlines as [|line lines Hline _ IH]; intros st Hq; simpl.
  - by apply save_lookup_other.
  - destruct (startswith line marker) eqn:Hm.
    + rewrite IH.
      * unfold step. rewrite Hm. simpl. by apply save_lookup_other.
      * unfold step. rewrite Hm. simpl. intros [= E]. by apply Hline.
    + assert (E : qas (step st line) = qas st ∧ current_q (step st line) = current_q st).
      { unfold step. rewrite Hm. by destruct (truthy_opt (current_q st)). }
      destruct E as [E1 E2]. rewrite IH; [by rewrite E1 | by rewrite E2].
Qed.

Lemma parse_faq_no_marker_empty (md_text : str) :
  Forall (λ line, startswith line marker = false) (split md_text newline) →
  parse_faq md_text = ∅.
Proof.
  intros H. unfold parse_faq, scan_lines.
  by rewrite (scan_skips_closed _ scan_init H).
Qed.

(** X1. A text without a marker line parses to the empty mapping. *)
Theorem parse_faq_no_marker (md_text : str) :
  Forall (λ line, startswith line marker = false) (split md_text newline) →
  parse_faq md_text = ∅.
Proof. apply parse_faq_no_marker_empty. Qed.

Lemma parse_faq_no_marker_witness :
  parse_faq (of_string "Pricing" ++ [newline] ++ of_string "# Plans" ++ [newline]
             ++ of_string "##Free tier") = ∅.
Proof.
  refine (parse_faq_no_marker _ _).
  repeat constructor.
Defined.

(** X2. The answer stored for a question is made of the lines between
    the last marker line of that question and the next marker line (or
    the end of the text), joined with newlines and stripped: an earlier
    marker line with the same question text is overwritten. *)
Theorem parse_faq_answer_of_last_occurrence
    (md_text : str) (pre body rest : list str) (line : str) :
  split md_text newline = pre ++ line :: body ++ rest →
  startswith line marker = true →
  question_of line ≠ [] →
  Forall (λ l, startswith l marker = false) body →
  match rest with [] => True | next :: _ => startswith next marker = true end →
  Forall (λ l, startswith l marker = true → question_of l ≠ question_of line) rest →
  parse_faq md_text !! question_of line = Some (strip (join [newline] body)).
Proof.
  intros Hsplit Hm Hq Hbody Hnext Hrest.
  unfold parse_faq. rewrite Hsplit.
  replace (pre ++ line :: body ++ rest) with ((pre ++ line :: body) ++ rest)
    by (by rewrite <- app_assoc).
  unfold scan_lines. rewrite fold_left_app.
  fold (scan_lines (pre ++ line :: body)).
  rewrite scan_last_question by done.
  assert (Hsave : ∀ m : gmap str str,
    save {| qas := m; current_q := Some (question_of line); current_a := body |}
      !! question_of line = Some (strip (join [newline] body))).
  { intros m. unfold save. simpl. apply truthy_true in Hq. rewrite Hq.
    apply lookup_insert_eq. }
  destruct rest as [|next rest]; simpl; [apply Hsave|].
  inversion Hrest as [|? ? Hn Hrest']; subst.
  rewrite save_fold_other; [| |done].
  - unfold step. rewrite Hnext. simpl. apply Hsave.
  - unfold step. rewrite Hnext. simpl. intros [= E]. by apply Hn.
Qed.

Lemma parse_faq_answer_of_last_occurrence_witness :
  parse_faq (of_string "## Q" ++ [newline] ++ of_string "old" ++ [newline]
             ++ of_string "## Q" ++ [newline] ++ of_string "new" ++ [newline]
             ++ of_string "## R" ++ [newline] ++ of_string "other")
    !! of_string "Q"
  = Some (of_string "new").
Proof.
  refine (parse_faq_answer_of_last_occurrence _
    [of_string "## Q"; of_string "old"] [of_string "new"]
    [of_string "## R"; of_string "other"] (of_string "## Q") _ _ _ _ _ _).
  - vm_compute. reflexivity.
  - vm_compute. reflexivity.
  - vm_compute. discriminate.
  - repeat constructor.
  - vm_compute. reflexivity.
  - repeat constructor; vm_compute; intros; discriminate.
Defined.

(** X3. The keys of the mapping returned are exactly the non-empty
    question texts of the marker lines of the text. *)
Theorem parse_faq_keys (md_text k : str) :
  k ∈ dom (parse_faq md_text) ↔
  k ≠ [] ∧ ∃ line, line ∈ split md_text newline
                   ∧ startswith line marker = true ∧ question_of line = k.
Proof.
  rewrite dom_parse_faq, elem_of_list_to_set. split.
  - intros (Hne & line & Hin & Hm & ->)%elem_of_questions_of.
    split; [done|]. by exists line.
  - intros (Hne & line & Hin & Hm & <-).
    unfold questions_of. rewrite list_elem_of_In, filter_In, in_map_iff.
    split; [|by apply truthy_true].
    exists line. split; [done|]. apply filter_In.
    by rewrite <- list_elem_of_In.
Qed.

Lemma parse_faq_keys_witness :
  of_string "Where are logs stored?" ∈ dom (parse_faq faq_doc).
Proof.
  refine (proj2 (parse_faq_keys faq_doc (of_string "Where are logs stored?")) _).
  split; [discriminate|].
  exists (of_string "## Where are logs stored?").
  split; [|split; vm_compute; reflexivity].
  vm_compute. do 2 right. left.
Defined.

Lemma save_trimmed (st : scan) :
  map_Forall (λ _ v, trimmed v) (qas st) →
  map_Forall (λ _ v, trimmed v) (save st).
Proof.
  intros H. unfold save. destruct (current_q st) as [q|]; [|done].
  destruct (truthy q); [|done].
  apply map_Forall_insert_2; [apply strip_trimmed | done].
Qed.

Lemma fold_step_trimmed (lines : list str) (st : scan) :
  map_Forall (λ _ v, trimmed v) (qas st) →
  map_Forall (λ _ v, trimmed v) (qas (fold_left step lines st)).
Proof.
  revert st. induction lines as [|line lines IH]; intros st H; simpl; [done|].
  apply IH. unfold step.
  destruct (startswith line marker); simpl; [by apply save_trimmed|].
  by destruct (truthy_opt (current_q st)).
Qed.

(** X4. Every answer of the mapping returned has no white space at
    either end, so stripping it again changes nothing. *)
Theorem parse_faq_answers_trimmed (md_text k v : str) :
  parse_faq md_text !! k = Some v → trimmed v ∧ strip v = v.
Proof.
  intros Hk.
  assert (Ht : trimmed v).
  { refine (save_trimmed _ _ k v Hk).
    apply fold_step_trimmed. apply map_Forall_empty. }
  split; [done | by apply strip_fixed].
Qed.

Lemma parse_faq_answers_trimmed_witness :
  strip (of_string "Go to Settings.") = of_string "Go to Settings.".
Proof.
  refine (proj2 (parse_faq_answers_trimmed faq_doc
            (of_string "How do I reset my password?")
            (of_string "Go to Settings.") _)).
  vm_compute. reflexivity.
Defined.

(** X5. The lines before the first marker line are discarded: a text
    without marker lines put in front of a document, on lines of its own,
    does not change what the document parses to. *)
Theorem parse_faq_ignores_leading_lines (intro md_text : str) :
  Forall (λ line, startswith line marker = false) (split intro newline) →
  parse_faq (intro ++ newline :: md_text) = parse_faq md_text.
Proof.
  intros H. unfold parse_faq, scan_lines.
  rewrite split_app_sep, fold_left_app.
  by rewrite (scan_skips_closed _ scan_init H).
Qed.

Lemma parse_faq_ignores_leading_lines_witness :
  parse_faq (of_string "FAQ of the product" ++ newline :: faq_doc)
  = parse_faq faq_doc.
Proof.
  refine (parse_faq_ignores_leading_lines _ faq_doc _).
  repeat constructor.
Defined.

(** X6. After a marker line whose question text is empty, the lines up
    to the next marker line are discarded: the text parses as it does
    without them. *)
Theorem parse_faq_drops_lines_of_empty_question
    (md_text md_text' : str) (pre body rest : list str) (line : str) :
  split md_text newline = pre ++ line :: body ++ rest →
  split md_text' newline = pre ++ line :: rest →
  startswith line marker = true →
  question_of line = [] →
  Forall (λ l, startswith l marker = false) body →
  parse_faq md_text = parse_faq md_text'.
Proof.
  intros E E' Hm Hq Hbody. unfold parse_faq, scan_lines. rewrite E, E'.
  rewrite !fold_left_app. simpl. rewrite fold_left_app.
  f_equal. f_equal.
  apply scan_skips_closed; [done|].
  unfold step. rewrite Hm. simpl. by rewrite Hq.
Qed.

Lemma parse_faq_drops_lines_of_empty_question_witness :
  parse_faq (of_string "## " ++ [newline] ++ of_string "lost" ++ [newline]
             ++ of_string "## Q" ++ [newline] ++ of_string "kept")
  = parse_faq (of_string "## " ++ [newline]
               ++ of_string "## Q" ++ [newline] ++ of_string "kept").
Proof.
  refine (parse_faq_drops_lines_of_empty_question _ _ []
            [of_string "lost"] [of_string "## Q"; of_string "kept"]
            (of_string "## ") _ _ _ _ _).
  - vm_compute. reflexivity.
  - vm_compute. reflexivity.
  - vm_compute. reflexivity.
  - vm_compute. reflexivity.
  - repeat constructor.
Defined.

(** X7. On a marker line in which the marker does not occur again after
    the prefix, the question text is the remainder of the line after the
    prefix, stripped. *)
Theorem question_of_single_marker (line : str) :
  startswith line marker = true →
  absent marker (drop (List.length marker) line) →
  question_of line = question_after_prefix line.
Proof.
  intros Hm Habs. unfold question_of, question_after_prefix. f_equal.
  change marker with [35; 35; 32] in Hm.
  destruct line as [|c1 line]; [discriminate|].
  simpl in Hm. apply andb_true_iff in Hm as [H1 Hm].
  destruct line as [|c2 line]; [discriminate|].
  simpl in Hm. apply andb_true_iff in Hm as [H2 Hm].
  destruct line as [|c3 rest]; [discriminate|].
  simpl in Hm. apply andb_true_iff in Hm as [H3 _].
  apply N.eqb_eq in H1, H2, H3. subst.
  change (drop (List.length marker) (35 :: 35 :: 32 :: rest)) with rest in *.
  unfold replace.
  assert (E : replace_from 0 marker [] (35 :: 35 :: 32 :: rest)
              = replace_from 0 marker [] rest).
  { change marker with [35; 35; 32]. simpl. destruct rest; reflexivity. }
  rewrite E. by apply replace_absent.
Qed.

Lemma question_of_single_marker_witness :
  question_of (of_string "## Why # and ##?")
  = question_after_prefix (of_string "## Why # and ##?").
Proof.
  refine (question_of_single_marker _ _ _).
  - vm_compute. reflexivity.
  - intros i. do 14 (destruct i as [|i]; [vm_compute; reflexivity|]).
    vm_compute. by destruct i.
Defined.

(** On a marker line without a second marker, removing the markers
    removes the prefix and nothing else. *)
Lemma replace_marker_prefix (line : str) :
  startswith line marker = true →
  absent marker (drop (List.length marker) line) →
  replace line marker [] = drop (List.length marker) line.
Proof.
  intros Hm Habs.
  change marker with [35; 35; 32] in Hm.
  destruct line as [|c1 line]; [discriminate|].
  simpl in Hm. apply andb_true_iff in Hm as [H1 Hm].
  destruct line as [|c2 line]; [discriminate|].
  simpl in Hm. apply andb_true_iff in Hm as [H2 Hm].
  destruct line as [|c3 rest]; [discriminate|].
  simpl in Hm. apply andb_true_iff in Hm as [H3 _].
  apply N.eqb_eq in H1, H2, H3. subst.
  change (drop (List.length marker) (35 :: 35 :: 32 :: rest)) with rest in *.
  unfold replace.
  assert (E : replace_from 0 marker [] (35 :: 35 :: 32 :: rest)
              = replace_from 0 marker [] rest).
  { change marker with [35; 35; 32]. simpl. destruct rest; reflexivity. }
  rewrite E. by apply replace_absent.
Qed.

Lemma question_texts_of_marker_lines (lines : list str) :
  Forall (λ line, startswith line marker = true) lines →
  Forall (λ line, absent marker (drop (List.length marker) line)) lines →
  map question_of lines = map question_after_prefix lines.
Proof.
  induction 1 as [|line lines Hm _ IH]; intros Habs; simpl; [done|].
  inversion Habs as [|? ? Hline Hlines]; subst.
  rewrite IH by done. f_equal.
  unfold question_of, question_after_prefix. by rewrite replace_marker_prefix.
Qed.

Lemma marker_lines_start (md_text : str) :
  Forall (λ line, startswith line marker = true) (marker_lines md_text).
Proof.
  apply Forall_forall. intros line Hin. unfold marker_lines in Hin.
  apply list_elem_of_In in Hin. by apply filter_In in Hin as [_ Hm].
Qed.

Lemma length_filter_map {A B : Type} (p : B → bool) (f : A → B) (l : list A) :
  List.length (List.filter p (map f l))
  = List.length (List.filter (λ x, p (f x)) l).
Proof.
  induction l as [|x l IH]; simpl; [done|].
  destruct (p (f x)); simpl; by rewrite IH.
Qed.

Lemma NoDup_list_filter {A : Type} (p : A → bool) (l : list A) :
  NoDup l → NoDup (List.filter p l).
Proof.
  induction 1 as [|x l Hx _ IH]; simpl; [constructor|].
  destruct (p x); [|done].
  apply NoDup_cons. split; [|done].
  rewrite list_elem_of_In, filter_In, <- list_elem_of_In. by intros [? _].
Qed.

Lemma filter_all {A : Type} (p : A → bool) (l : list A) :
  Forall (λ x, p x = true) l → List.filter p l = l.
Proof.
  induction 1 as [|x l Hx _ IH]; simpl; [done|]. by rewrite Hx, IH.
Qed.

(** C3, amended.  For every text whose marker lines carry pairwise
    distinct question texts, and in which no marker line holds the marker
    again after its prefix, the mapping returned by the parser has as
    many entries as the text has marker lines with a question text that
    is not empty: a marker line with an empty question text contributes
    no entry, and when no question text is empty the number of entries is
    the number of marker lines. *)
Theorem parse_faq_size_marker_lines (md_text : str) :
  Forall (λ line, absent marker (drop (List.length marker) line))
    (marker_lines md_text) →
  NoDup (map question_after_prefix (marker_lines md_text)) →
  size (parse_faq md_text)
  = List.length (List.filter (λ line, truthy (question_after_prefix line))
                             (marker_lines md_text))
  ∧ (Forall (λ line, question_after_prefix line ≠ []) (marker_lines md_text) →
     size (parse_faq md_text) = List.length (marker_lines md_text)).
Proof.
  intros Habs Hnd.
  assert (Hsize : size (parse_faq md_text)
    = List.length (List.filter (λ line, truthy (question_after_prefix line))
                               (marker_lines md_text))).
  { rewrite <- size_dom, dom_parse_faq. unfold questions_of.
    fold (marker_lines md_text).
    rewrite (question_texts_of_marker_lines _ (marker_lines_start md_text) Habs).
    rewrite size_list_to_set by (by apply NoDup_list_filter).
    apply length_filter_map. }
  split; [done|].
  intros Hne. rewrite Hsize. f_equal. apply filter_all.
  eapply Forall_impl; [exact Hne|]. intros line. apply truthy_true.
Qed.

Lemma parse_faq_size_marker_lines_witness :
  size (parse_faq (of_string "## Q1" ++ [newline] ++ of_string "A" ++ [newline]
                   ++ of_string "## Q2" ++ [newline] ++ of_string "B"))
  = 2%nat.
Proof.
  refine (proj2 (parse_faq_size_marker_lines _ _ _) _).
  - change (Forall (λ line, absent marker (drop (List.length marker) line))
              [of_string "## Q1"; of_string "## Q2"]).
    repeat apply List.Forall_cons; try apply List.Forall_nil;
      intros i; do 3 (destruct i as [|i]; [reflexivity|]);
      destruct i; reflexivity.
  - vm_compute. repeat constructor; rewrite ?list_elem_of_In; simpl;
      intuition discriminate.
  - vm_compute. repeat constructor; discriminate.
Defined.

(** ** The corpus: further properties *)

Lemma fold_update_lookup (k v : str) (parsed : list (gmap str str)) (acc : gmap str str) :
  fold_left update parsed acc !! k = Some v →
  acc !! k = Some v ∨ ∃ m, m ∈ parsed ∧ m !! k = Some v.
Proof.
  revert acc. induction parsed as [|m parsed IH]; intros acc; simpl; [by left|].
  intros [H | (m' & Hm' & H)]%IH.
  - unfold update in H. apply lookup_union_Some_raw in H as [H | [_ H]].
    + right. exists m. split; [left|done].
    + by left.
  - right. exists m'. split; [by right|done].
Qed.

Lemma all_qas_lookup (docs : list str) (k v : str) :
  all_qas docs !! k = Some v →
  ∃ text, text ∈ docs ∧ parse_faq text !! k = Some v.
Proof.
  unfold all_qas, merge.
  intros [H | (m & Hm & H)]%fold_update_lookup; [by rewrite lookup_empty in H|].
  apply list_elem_of_fmap in Hm as (text & -> & Htext). by exists text.
Qed.

(** X8. A document without a marker line contributes nothing to the
    corpus, wherever it stands among the documents. *)
Theorem all_qas_skips_document_without_marker
    (before after : list str) (md_text : str) :
  Forall (λ line, startswith line marker = false) (split md_text newline) →
  all_qas (before ++ md_text :: after) = all_qas (before ++ after).
Proof.
  intros H. unfold all_qas, merge.
  rewrite !map_app, !fold_left_app. simpl.
  rewrite (parse_faq_no_marker_empty md_text H).
  unfold update at 2. by rewrite (left_id_L ∅ (∪)).
Qed.

Lemma all_qas_skips_document_without_marker_witness :
  all_qas ([faq_doc] ++ of_string "release notes" :: [])
  = all_qas ([faq_doc] ++ []).
Proof.
  refine (all_qas_skips_document_without_marker [faq_doc] [] _ _).
  repeat constructor.
Defined.

(** X9. Every answer of the corpus is the answer some document gives for
    that question, and has no white space at either end. *)
Theorem all_qas_answers (docs : list str) (k v : str) :
  all_qas docs !! k = Some v →
  (∃ text, text ∈ docs ∧ parse_faq text !! k = Some v) ∧ strip v = v.
Proof.
  intros (text & Htext & Hk)%all_qas_lookup.
  split; [by exists text|].
  apply strip_fixed.
  refine (save_trimmed _ _ k v Hk).
  apply fold_step_trimmed. apply map_Forall_empty.
Qed.

Lemma all_qas_answers_witness :
  strip (of_string "Logs are in /var/log.") = of_string "Logs are in /var/log.".
Proof.
  refine (proj2 (all_qas_answers [faq_doc] (of_string "Where are logs stored?")
                   (of_string "Logs are in /var/log.") _)).
  vm_compute. reflexivity.
Defined.

(** ** The matcher: further properties *)

Lemma split_words_blank (s : str) :
  Forall (λ c, isspace c = true) s → split_words [] s = [].
Proof. induction 1 as [|c s Hc _ IH]; simpl; [done|]. by rewrite Hc. Qed.

Section MatcherMore.

Variable token_set_ratio : str → str → Q.

Local Abbreviation score := token_set_ratio.

Local Open Scope Q_scope.

(** What the matcher returns scores at least the threshold and at least
    as much as every candidate. *)
Lemma best_match_Some_max (uq q : str) (questions : list str) :
  best_match score uq questions = Some q →
  q ∈ questions
  ∧ inject_Z (threshold uq) <= score uq q
  ∧ Forall (λ x, score uq x <= score uq q) questions.
Proof.
  unfold best_match, best_of.
  destruct (fold_track_cases score uq questions (None, 0))
    as [[E Hl] | (q' & Hq' & E & Hlt & Hl)]; rewrite E; simpl.
  - by destruct (Qle_bool _ _).
  - destruct (Qle_bool _ _) eqn:Hle; [|done].
    intros [= <-]. by apply Qle_bool_iff in Hle.
Qed.

(** The matcher returns nothing exactly when every candidate scores
    below the threshold. *)
Lemma best_match_None_below (uq : str) (questions : list str) :
  best_match score uq questions = None ↔
  Forall (λ x, score uq x < inject_Z (threshold uq)) questions.
Proof.
  unfold best_match, best_of.
  destruct (fold_track_cases score uq questions (None, 0))
    as [[E Hl] | (q & Hq & E & Hlt & Hl)]; rewrite E; simpl.
  - split; [intros _ | by destruct (Qle_bool _ _)].
    eapply Forall_impl; [exact Hl|]. simpl. intros x Hx.
    apply Qle_lt_trans with 0; [done | apply threshold_pos].
  - destruct (Qle_bool _ _) eqn:Hle.
    + split; [done|]. intros Hall. exfalso.
      apply Qle_bool_iff in Hle. rewrite Forall_forall in Hall.
      apply (Qlt_irrefl (score uq q)).
      apply Qlt_le_trans with (inject_Z (threshold uq)); [by apply Hall | done].
    + split; [intros _ | done].
      assert (Hlt' : score uq q < inject_Z (threshold uq)).
      { apply Qnot_le_lt. intros Hc. apply Qle_bool_iff in Hc. congruence. }
      eapply Forall_impl; [exact Hl|]. simpl. intros x Hx.
      by apply Qle_lt_trans with (score uq q).
Qed.

Lemma best_match_among_candidates (uq : str) (questions : list str) :
  best_match score uq questions = None
  ∨ ∃ q, best_match score uq questions = Some q ∧ q ∈ questions.
Proof.
  destruct (best_match score uq questions) as [q|] eqn:E; [|by left].
  right. exists q. split; [done|].
  by apply best_match_Some_max in E as [Hq _].
Qed.

(** X10. A question the matcher returns is one of the candidates, scores
    at least the threshold of the query, and no candidate scores
    more. *)
Theorem best_match_returns_accepted_maximum
    (uq q : str) (questions : list str) :
  best_match score uq questions = Some q →
  q ∈ questions
  ∧ inject_Z (threshold uq) <= score uq q
  ∧ ∀ x, x ∈ questions → score uq x <= score uq q.
Proof.
  intros (Hq & Hacc & Hmax)%best_match_Some_max.
  rewrite Forall_forall in Hmax. done.
Qed.

(** X11. The matcher finds nothing exactly when every candidate scores
    below the threshold of the query. *)
Theorem best_match_not_found_iff (uq : str) (questions : list str) :
  best_match score uq questions = None ↔
  ∀ x, x ∈ questions → score uq x < inject_Z (threshold uq).
Proof. rewrite best_match_None_below. apply Forall_forall. Qed.

(** X12. Whether the matcher finds a question does not depend on the
    order of the candidates, and the questions found for two orders have
    the same score. *)
Theorem best_match_order_of_questions
    (uq : str) (questions questions' : list str) :
  questions ≡ₚ questions' →
  (best_match score uq questions = None ↔
   best_match score uq questions' = None)
  ∧ ∀ q q', best_match score uq questions = Some q →
            best_match score uq questions' = Some q' →
            score uq q == score uq q'.
Proof.
  intros Hperm. split.
  - rewrite !best_match_None_below. split; apply Permutation_Forall; [done|].
    by symmetry.
  - intros q q' (Hq & _ & Hmax)%best_match_Some_max
                (Hq' & _ & Hmax')%best_match_Some_max.
    rewrite Forall_forall in Hmax, Hmax'.
    apply Qle_antisym.
    + apply Hmax'. by rewrite <- Hperm.
    + apply Hmax. by rewrite Hperm.
Qed.

(** X13. The floor never takes effect: the threshold is the value chosen
    from the number of words, one of 40, 45 and 50.  An empty query, or
    one made of white space only, has no word and the threshold 40. *)
Theorem threshold_values (uq : str) :
  threshold uq = bucket uq
  ∧ (threshold uq = 40 ∨ threshold uq = 45 ∨ threshold uq = 50)%Z
  ∧ (Forall (λ c, isspace c = true) uq → threshold uq = 40%Z).
Proof.
  assert (Hb : (bucket uq = 40 ∨ bucket uq = 45 ∨ bucket uq = 50)%Z).
  { unfold bucket. destruct (_ <=? 2)%nat; [by left|].
    destruct (_ <=? 4)%nat; [right; by left | right; by right]. }
  assert (Ht : threshold uq = bucket uq).
  { unfold threshold, floor. lia. }
  split; [done|]. split; [by rewrite Ht|].
  intros Hblank. rewrite Ht. unfold bucket, split_ws.
  by rewrite split_words_blank.
Qed.

End MatcherMore.

Lemma best_match_returns_accepted_maximum_witness :
  (inject_Z (threshold (of_string "Where")) <=
     prefix_ratio (of_string "Where") (of_string "Where are logs stored?"))%Q.
Proof.
  refine (proj1 (proj2 (best_match_returns_accepted_maximum prefix_ratio
    (of_string "Where") (of_string "Where are logs stored?")
    [of_string "How do I reset my password?"; of_string "Where are logs stored?"]
    _))).
  vm_compute. reflexivity.
Defined.

Lemma best_match_not_found_iff_witness :
  best_match prefix_ratio (of_string "qlll")
    [of_string "How do I reset my password?"; of_string "Where are logs stored?"]
  = None.
Proof.
  refine (proj2 (best_match_not_found_iff prefix_ratio (of_string "qlll") _) _).
  intros x Hx.
  apply list_elem_of_In in Hx. simpl in Hx.
  destruct Hx as [<- | [<- | []]]; vm_compute; reflexivity.
Defined.

Lemma best_match_order_of_questions_witness :
  best_match prefix_ratio (of_string "log")
    [of_string "login help"; of_string "logs stored"] = None
  ↔ best_match prefix_ratio (of_string "log")
    [of_string "logs stored"; of_string "login help"] = None.
Proof.
  refine (proj1 (best_match_order_of_questions prefix_ratio (of_string "log")
    [of_string "login help"; of_string "logs stored"]
    [of_string "logs stored"; of_string "login help"] _)).
  apply Permutation_swap.
Defined.

Lemma threshold_values_witness :
  threshold (of_string "  ") = 40%Z.
Proof.
  refine (proj2 (proj2 (threshold_values (of_string "  "))) _).
  repeat constructor.
Defined.

(** ** The formatter: further properties *)

Lemma polish_answer_nonempty (answer : str) :
  answer ≠ [] →
  polish_answer (Some answer)
  = Fore_CYAN ++ preamble ++ [newline; newline]
    ++ List.filter (λ c, negb (c =? N_of_ascii "`")) (strip answer)
    ++ Style_RESET_ALL.
Proof.
  intros Hne. unfold polish_answer. simpl.
  apply truthy_true in Hne. rewrite Hne. simpl.
  unfold backtick. simpl of_string. change (N_of_ascii "`") with 96.
  by rewrite replace_char_filter.
Qed.

(** X14. The reply never holds a backtick, whatever the answer. *)
Theorem polish_answer_no_backtick (answer_text : option str) :
  N_of_ascii "`" ∉ polish_answer answer_text.
Proof.
  assert (Hconst : ∀ s : str,
    N_of_ascii "`" ∉ s →
    N_of_ascii "`" ∉ Fore_CYAN ++ preamble ++ [newline; newline] ++ s ++ Style_RESET_ALL).
  { intros s Hs. rewrite !elem_of_app, !list_elem_of_In.
    intros [H | [H | [H | [H | H]]]];
      try (apply list_elem_of_In in H; contradiction);
      vm_compute in H; intuition discriminate. }
  destruct answer_text as [[|c a]|].
  - rewrite list_elem_of_In. vm_compute. intuition discriminate.
  - rewrite polish_answer_nonempty by done. apply Hconst.
    rewrite list_elem_of_In, filter_In. intros [_ H].
    by rewrite N.eqb_refl in H.
  - rewrite list_elem_of_In. vm_compute. intuition discriminate.
Qed.

(** X15. An answer made of white space only, but not empty, does not
    give the message that no information is available: the reply is the
    preamble with nothing after it. *)
Theorem polish_answer_blank (answer : str) :
  answer ≠ [] →
  Forall (λ c, isspace c = true) answer →
  polish_answer (Some answer)
  = Fore_CYAN ++ preamble ++ [newline; newline] ++ Style_RESET_ALL.
Proof.
  intros Hne Hblank. rewrite polish_answer_nonempty by done.
  by rewrite strip_blank.
Qed.

Lemma polish_answer_blank_witness :
  polish_answer (Some (of_string "  "))
  = Fore_CYAN ++ preamble ++ [newline; newline] ++ Style_RESET_ALL.
Proof.
  refine (polish_answer_blank (of_string "  ") _ _).
  - discriminate.
  - repeat constructor.
Defined.

(** X16. For an answer of the corpus, the reply is the message that no
    information is available exactly when the stored answer is empty, and
    otherwise holds the stored answer with its backticks removed and
    nothing else taken away. *)
Theorem polish_answer_of_corpus (docs : list str) (k v : str) :
  all_qas docs !! k = Some v →
  (v = [] → polish_answer (Some v)
            = Fore_RED ++ no_information ++ Style_RESET_ALL)
  ∧ (v ≠ [] → polish_answer (Some v)
              = Fore_CYAN ++ preamble ++ [newline; newline]
                ++ List.filter (λ c, negb (c =? N_of_ascii "`")) v
                ++ Style_RESET_ALL).
Proof.
  intros (text & _ & Hk)%all_qas_lookup. split.
  - by intros ->.
  - intros Hne. rewrite polish_answer_nonempty by done.
    rewrite strip_fixed; [done|].
    refine (save_trimmed _ _ k v Hk).
    apply fold_step_trimmed. apply map_Forall_empty.
Qed.

Lemma polish_answer_of_corpus_witness :
  polish_answer (Some (of_string "Go to Settings."))
  = Fore_CYAN ++ preamble ++ [newline; newline]
    ++ List.filter (λ c, negb (c =? N_of_ascii "`")) (of_string "Go to Settings.")
    ++ Style_RESET_ALL.
Proof.
  refine (proj2 (polish_answer_of_corpus [faq_doc]
            (of_string "How do I reset my password?")
            (of_string "Go to Settings.") _) _).
  - vm_compute. reflexivity.
  - discriminate.
Defined.

(** ** The interactive loop: properties *)

Lemma all_qas_key_not_empty (docs : list str) (k : str) :
  k ∈ dom (all_qas docs) → k ≠ [].
Proof.
  unfold all_qas, merge. rewrite dom_fold_update, dom_empty_L.
  intros [Hk | (m & Hm & Hk)]; [by apply not_elem_of_empty in Hk|].
  apply list_elem_of_fmap in Hm as (text & -> & _).
  rewrite dom_parse_faq, elem_of_list_to_set in Hk.
  by apply elem_of_questions_of in Hk as [Hne _].
Qed.

Section LoopFacts.

Variable token_set_ratio : str → str → Q.
Variable lower : str → str.

(** X17. With the corpus of some documents and a list of questions taken
    from its keys, one iteration prints either the apology, when the
    matcher finds nothing, or the question found and the reply made from
    the answer the corpus holds for it; the separator follows.  The reply
    is never made from an absent answer. *)
Theorem answer_question_cases
    (docs : list str) (questions : list str) (question : str) :
  (∀ q, q ∈ questions → q ∈ dom (all_qas docs)) →
  (best_match token_set_ratio question questions = None
   ∧ answer_question token_set_ratio (all_qas docs) questions question
     = [sorry_message; separator])
  ∨ (∃ q v,
       best_match token_set_ratio question questions = Some q
       ∧ all_qas docs !! q = Some v
       ∧ answer_question token_set_ratio (all_qas docs) questions question
         = [matched_message q; polish_answer (Some v); separator]).
Proof.
  intros Hkeys. unfold answer_question.
  destruct (best_match_among_candidates token_set_ratio question questions)
    as [E | (q & E & Hq)]; rewrite E; simpl.
  - by left.
  - right. pose proof (Hkeys q Hq) as Hdom.
    pose proof (all_qas_key_not_empty docs q Hdom) as Hne.
    apply elem_of_dom in Hdom as [v Hv].
    exists q, v. rewrite Hv.
    apply truthy_true in Hne. by rewrite Hne.
Qed.

(** X18. The loop prints, for each line read that is not a command to
    leave, what the iteration prints for it.  It ends by the command: the
    farewell is the last string printed and the lines after the command
    are not read.  Without a command it ends only when the input does. *)
Theorem loop_until_exit
    (all_qas : gmap str str) (questions : list str) (before : list str) :
  Forall (λ line, is_exit lower (strip line) = false) before →
  loop token_set_ratio lower all_qas questions before
  = (concat (map (λ line, answer_question token_set_ratio all_qas questions
                            (strip line)) before),
     EndOfInput)
  ∧ ∀ command after,
      is_exit lower (strip command) = true →
      loop token_set_ratio lower all_qas questions (before ++ command :: after)
      = (concat (map (λ line, answer_question token_set_ratio all_qas questions
                                (strip line)) before)
         ++ [goodbye_message],
         Exited).
Proof.
  induction 1 as [|line before Hline _ [IH1 IH2]]; simpl.
  - split; [done|]. intros command after Hc. by rewrite Hc.
  - rewrite Hline, IH1. simpl. split; [done|].
    intros command after Hc. rewrite (IH2 command after Hc). simpl.
    by rewrite <- app_assoc.
Qed.

End LoopFacts.

Lemma answer_question_cases_witness :
  let questions :=
    [of_string "How do I reset my password?"; of_string "Where are logs stored?"] in
  (best_match prefix_ratio (of_string "Where") questions = None
   ∧ answer_question prefix_ratio (all_qas [faq_doc]) questions (of_string "Where")
     = [sorry_message; separator])
  ∨ (∃ q v,
       best_match prefix_ratio (of_string "Where") questions = Some q
       ∧ all_qas [faq_doc] !! q = Some v
       ∧ answer_question prefix_ratio (all_qas [faq_doc]) questions (of_string "Where")
         = [matched_message q; polish_answer (Some v); separator]).
Proof.
  intros questions.
  refine (answer_question_cases prefix_ratio [faq_doc] questions
            (of_string "Where") _).
  intros q Hq. apply list_elem_of_In in Hq. simpl in Hq.
  destruct Hq as [<- | [<- | []]]; apply elem_of_dom; vm_compute; by eexists.
Defined.

Lemma loop_until_exit_witness :
  let questions :=
    [of_string "How do I reset my password?"; of_string "Where are logs stored?"] in
  loop prefix_ratio ascii_lower (all_qas [faq_doc]) questions
    ([of_string "Where"] ++ of_string " EXIT " :: [of_string "How"])
  = (concat (map (λ line, answer_question prefix_ratio (all_qas [faq_doc])
                            questions (strip line)) [of_string "Where"])
     ++ [goodbye_message],
     Exited).
Proof.
  intros questions.
  refine (proj2 (loop_until_exit prefix_ratio ascii_lower (all_qas [faq_doc])
                   questions [of_string "Where"] _)
            (of_string " EXIT ") [of_string "How"] _).
  - repeat constructor.
  - vm_compute. reflexivity.
Defined.

(** ** Loading the documents: properties *)

Lemma startswith_prefix (s prefix : str) :
  startswith s prefix = true ↔ ∃ t, s = prefix ++ t.
Proof.
  revert s. induction prefix as [|p prefix IH]; intros s.
  - split; [intros _; by exists s | intros _; by destruct s].
  - destruct s as [|c s]; simpl.
    + split; [done | intros [t E]; discriminate].
    + rewrite andb_true_iff, N.eqb_eq, IH. split.
      * intros [-> [t ->]]. by exists t.
      * intros [t [= -> ->]]. split; [done | by exists t].
Qed.

Lemma endswith_suffix (s suffix : str) :
  endswith s suffix = true ↔ ∃ stem, s = stem ++ suffix.
Proof.
  unfold endswith. rewrite startswith_prefix. split.
  - intros [t E]. exists (rev t).
    apply (f_equal (@rev N)) in E.
    by rewrite rev_involutive, rev_app_distr, rev_involutive in E.
  - intros [stem ->]. exists (rev stem). by rewrite rev_app_distr.
Qed.

Lemma dict_set_fresh (d : list (str * str)) (k v : str) :
  k ∉ map fst d → dict_set d k v = d ++ [(k, v)].
Proof.
  induction d as [|[k' v'] d IH]; simpl; [done|].
  rewrite not_elem_of_cons. intros [Hne Hk].
  destruct (decide (k' = k)); [congruence|]. by rewrite IH.
Qed.

Lemma load_files_raises (entries : listing) (docs : list (str * str)) (e : exception) :
  load_files entries docs = Raised e →
  ∃ before filename after,
    entries = before ++ (filename, Raises e) :: after
    ∧ is_doc_name filename = true
    ∧ ∀ f e', (f, Raises e') ∈ before → is_doc_name f = false.
Proof.
  revert docs. induction entries as [|[filename content] entries IH];
    intros docs; simpl; [done|].
  destruct (is_doc_name filename) eqn:Hname.
  - destruct content as [text|e0].
    + intros (before & f & after & -> & Hf & Hbefore)%IH.
      exists ((filename, Text text) :: before), f, after.
      split; [done|]. split; [done|].
      intros f' e' [[= _ ?] | Hin]%elem_of_cons. by apply (Hbefore f' e').
    + intros [= ->]. exists [], filename, entries.
      split; [done|]. split; [done|].
      intros f' e' Hin. by apply elem_of_nil in Hin.
  - intros (before & f & after & -> & Hf & Hbefore)%IH.
    exists ((filename, content) :: before), f, after.
    split; [done|]. split; [done|].
    intros f' e' [[= -> _] | Hin]%elem_of_cons; [done|].
    by apply (Hbefore f' e').
Qed.

Lemma load_files_first_failure
    (before after : listing) (filename : str) (e : exception)
    (docs : list (str * str)) :
  is_doc_name filename = true →
  (∀ f e', (f, Raises e') ∈ before → is_doc_name f = false) →
  load_files (before ++ (filename, Raises e) :: after) docs = Raised e.
Proof.
  intros Hname. revert docs.
  induction before as [|[f content] before IH]; intros docs Hbefore; simpl.
  - by rewrite Hname.
  - assert (Hrest : ∀ f' e', (f', Raises e') ∈ before → is_doc_name f' = false).
    { intros f' e' Hin. apply (Hbefore f' e'). by right. }
    destruct (is_doc_name f) eqn:Hf; [|by apply IH].
    destruct content as [text|e0]; [by apply IH|].
    rewrite (Hbefore f e0) in Hf; [done | left].
Qed.

Lemma load_files_fresh (entries : listing) (docs : list (str * str)) :
  NoDup (map fst docs ++ map fst entries) →
  (∀ filename e, (filename, Raises e) ∈ entries → is_doc_name filename = false) →
  load_files entries docs = Docs (docs ++ doc_files entries).
Proof.
  revert docs. induction entries as [|[filename content] entries IH];
    intros docs Hnd Hread; simpl.
  - by rewrite app_nil_r.
  - assert (Hread' : ∀ f e, (f, Raises e) ∈ entries → is_doc_name f = false).
    { intros f e Hf. apply (Hread f e). by right. }
    simpl in Hnd. apply NoDup_app in Hnd as (Hd & Hdis & Hes).
    apply NoDup_cons in Hes as [Hfresh Hes].
    unfold doc_files. simpl. fold (doc_files entries).
    destruct (is_doc_name filename) eqn:Hname.
    + destruct content as [text|e].
      * simpl. rewrite dict_set_fresh.
        2:{ intros Hin. apply (Hdis filename Hin). left. }
        rewrite IH; [by rewrite <- app_assoc| |done].
        rewrite map_app. simpl. rewrite <- app_assoc. simpl.
        apply NoDup_app. split; [done|]. split; [|by apply NoDup_cons].
        intros x Hx. apply Hdis, Hx.
      * rewrite (Hread filename e) in Hname; [done | left].
    + apply IH; [|done].
      apply NoDup_app. split; [done|]. split; [|done].
      intros x Hx Hin. apply (Hdis x Hx). by right.
Qed.

(** X19. Loading raises [FileNotFoundError] when the path is not a
    directory, and the exception of [os.listdir] when the listing fails.
    In a directory that is listed it raises an exception exactly when a
    file with a document extension cannot be opened or read: the
    exception is that of the first such file in the order of the listing,
    and one such file stops the whole load. *)
Theorem load_docs_failures :
  load_docs NotADirectory = Raised FileNotFoundError
  ∧ (∀ e, load_docs (Unlistable e) = Raised e)
  ∧ ∀ entries e,
      load_docs (Directory entries) = Raised e ↔
      ∃ before filename after,
        entries = before ++ (filename, Raises e) :: after
        ∧ is_doc_name filename = true
        ∧ ∀ f e', (f, Raises e') ∈ before → is_doc_name f = false.
Proof.
  split; [done|]. split; [done|].
  intros entries e. simpl. split.
  - apply load_files_raises.
  - intros (before & filename & after & -> & Hname & Hbefore).
    by apply load_files_first_failure.
Qed.

Lemma load_docs_failures_witness :
  load_docs (Directory [(of_string "logo.png", Raises PermissionError);
                        (of_string "faq.md", Text faq_doc);
                        (of_string "gone.txt", Raises FileNotFoundError);
                        (of_string "notes.txt", Raises UnicodeDecodeError)])
  = Raised FileNotFoundError.
Proof.
  refine (proj2 (proj2 (proj2 load_docs_failures) _ _) _).
  exists [(of_string "logo.png", Raises PermissionError);
          (of_string "faq.md", Text faq_doc)],
         (of_string "gone.txt"),
         [(of_string "notes.txt", Raises UnicodeDecodeError)].
  split; [reflexivity|]. split; [vm_compute; reflexivity|].
  intros f e' Hin. apply list_elem_of_In in Hin. simpl in Hin.
  destruct Hin as [[= <- _] | [[=] | []]]. vm_compute. reflexivity.
Defined.

(** X20. In a directory with distinct file names in which every file
    with a document extension can be read, loading gives those files with
    their texts, in the order of the listing, and nothing else. *)
Theorem load_docs_loaded (entries : listing) :
  NoDup (map fst entries) →
  (∀ filename e, (filename, Raises e) ∈ entries → is_doc_name filename = false) →
  load_docs (Directory entries) = Docs (doc_files entries)
  ∧ ∀ filename text,
      (filename, text) ∈ doc_files entries ↔
      (filename, Text text) ∈ entries ∧ is_doc_name filename = true.
Proof.
  intros Hnd Hread. split.
  - unfold load_docs. by rewrite load_files_fresh.
  - intros filename text. unfold doc_files. rewrite list_elem_of_omap. split.
    + intros ([f c] & Hin & E). simpl in E.
      destruct (is_doc_name f) eqn:Hf; [|done].
      destruct c as [t|]; [|done]. by injection E as -> ->.
    + intros [Hin Hf]. exists (filename, Text text). split; [done|].
      simpl. by rewrite Hf.
Qed.

Lemma load_docs_loaded_witness :
  load_docs (Directory [(of_string "faq.md", Text faq_doc);
                        (of_string "logo.png", Raises PermissionError);
                        (of_string "pricing.txt", Text (of_string "## Price?"))])
  = Docs [(of_string "faq.md", faq_doc);
          (of_string "pricing.txt", of_string "## Price?")].
Proof.
  refine (proj1 (load_docs_loaded _ _ _)).
  - vm_compute. repeat constructor; rewrite ?list_elem_of_In; simpl;
      intuition discriminate.
  - intros filename e Hin. apply list_elem_of_In in Hin. simpl in Hin.
    destruct Hin as [[=] | [[= <- _] | [[=] | []]]]. vm_compute. reflexivity.
Defined.

(** X21. A file name has a document extension exactly when it ends with
    [.txt] or with [.md], in these letters: the name may be the extension
    alone. *)
Theorem is_doc_name_extension (filename : str) :
  is_doc_name filename = true ↔
  ∃ stem, filename = stem ++ of_string ".txt"
          ∨ filename = stem ++ of_string ".md".
Proof.
  unfold is_doc_name. rewrite orb_true_iff, !endswith_suffix. split.
  - intros [[stem E] | [stem E]]; exists stem; [by left | by right].
  - intros [stem [E | E]]; [left | right]; by exists stem.
Qed.

Lemma is_doc_name_extension_witness :
  is_doc_name (of_string ".md") = true.
Proof.
  refine (proj2 (is_doc_name_extension _) _).
  exists []. by right.
Defined.

(** X22. The files without a document extension are never opened:
    loading gives the same result without them, whether they can be read
    or not. *)
Theorem load_docs_skips_other_files (entries : listing) :
  load_docs (Directory entries)
  = load_docs (Directory (List.filter (λ entry, is_doc_name (fst entry)) entries)).
Proof.
  unfold load_docs.
  assert (H : ∀ docs, load_files entries docs
    = load_files (List.filter (λ entry, is_doc_name (fst entry)) entries) docs).
  { induction entries as [|[filename content] entries IH]; intros docs; simpl;
      [done|].
    destruct (is_doc_name filename) eqn:Hname; simpl; [|apply IH].
    rewrite Hname. destruct content; [apply IH | done]. }
  by rewrite H.
Qed.

Lemma elem_of_doc_files (entries : listing) (filename text : str) :
  (filename, text) ∈ doc_files entries ↔
  (filename, Text text) ∈ entries ∧ is_doc_name filename = true.
Proof.
  unfold doc_files. rewrite list_elem_of_omap. split.
  - intros ([f c] & Hin & E). simpl in E.
    destruct (is_doc_name f) eqn:Hf; [|done].
    destruct c as [t|]; [|done]. by injection E as -> ->.
  - intros [Hin Hf]. exists (filename, Text text). split; [done|].
    simpl. by rewrite Hf.
Qed.

Lemma elem_of_dom_parse_faq (md_text k : str) :
  k ∈ dom (parse_faq md_text) ↔
  k ≠ [] ∧ ∃ line, line ∈ split md_text newline
                   ∧ startswith line marker = true ∧ question_of line = k.
Proof.
  rewrite dom_parse_faq, elem_of_list_to_set. split.
  - intros (Hne & line & Hin & Hm & ->)%elem_of_questions_of.
    split; [done|]. by exists line.
  - intros (Hne & line & Hin & Hm & <-).
    unfold questions_of. rewrite list_elem_of_In, filter_In, in_map_iff.
    split; [|by apply truthy_true].
    exists line. split; [done|]. apply filter_In.
    by rewrite <- list_elem_of_In.
Qed.

(** X23. When the folder is a directory with distinct file names in which
    every file with a document extension can be read, the corpus is
    built, and its questions are exactly the non-empty question texts of
    the marker lines of those files. *)
Theorem build_corpus_questions (entries : listing) :
  NoDup (map fst entries) →
  (∀ filename e, (filename, Raises e) ∈ entries → is_doc_name filename = false) →
  ∃ corpus,
    build_corpus (Directory entries) = inr corpus
    ∧ ∀ k, k ∈ dom corpus ↔
           k ≠ [] ∧ ∃ filename text line,
             (filename, Text text) ∈ entries
             ∧ is_doc_name filename = true
             ∧ line ∈ split text newline
             ∧ startswith line marker = true
             ∧ question_of line = k.
Proof.
  intros Hnd Hread. unfold build_corpus, load_docs.
  rewrite load_files_fresh by done. simpl.
  eexists. split; [done|]. intros k.
  unfold all_qas, merge. rewrite dom_fold_update, dom_empty_L. split.
  - intros [Hk | (m & Hm & Hk)]; [by apply not_elem_of_empty in Hk|].
    apply list_elem_of_fmap in Hm as (text & -> & Htext).
    apply list_elem_of_fmap in Htext as ([filename text'] & -> & Hfile).
    apply elem_of_doc_files in Hfile as [Hin Hname].
    apply elem_of_dom_parse_faq in Hk as (Hne & line & Hline & Hm & E).
    split; [done|]. by exists filename, text', line.
  - intros (Hne & filename & text & line & Hin & Hname & Hline & Hm & E).
    right. exists (parse_faq text). split.
    + apply list_elem_of_fmap. exists text. split; [done|].
      apply list_elem_of_fmap. exists (filename, text). split; [done|].
      by apply elem_of_doc_files.
    + apply elem_of_dom_parse_faq. split; [done|]. by exists line.
Qed.

Lemma build_corpus_questions_witness :
  ∃ corpus,
    build_corpus (Directory [(of_string "faq.md", Text faq_doc);
                             (of_string "logo.png", Raises PermissionError)])
      = inr corpus
    ∧ ∀ k, k ∈ dom corpus ↔
           k ≠ [] ∧ ∃ filename text line,
             (filename, Text text) ∈ [(of_string "faq.md", Text faq_doc);
                                      (of_string "logo.png", Raises PermissionError)]
             ∧ is_doc_name filename = true
             ∧ line ∈ split text newline
             ∧ startswith line marker = true
             ∧ question_of line = k.
Proof.
  refine (build_corpus_questions _ _ _).
  - vm_compute. repeat constructor; rewrite ?list_elem_of_In; simpl;
      intuition discriminate.
  - intros filename e Hin. apply list_elem_of_In in Hin. simpl in Hin.
    destruct Hin as [[=] | [[= <- _] | []]]. vm_compute. reflexivity.
Defined.

Lemma polish_answer_no_backtick_witness :
  N_of_ascii "`" ∉ polish_answer (Some (of_string "Use `install.exe`.")).
Proof.
  exact (polish_answer_no_backtick (Some (of_string "Use `install.exe`."))).
Defined.
